(** * DUCC-Website icon scripts: a shallow embedding and its properties

    The repository holds three build-time Python scripts:
    - [temprename.py]: renames design-tool exports whose name holds the
      marker [dp_];
    - [iconjs.py]: compiles every [.svg] file of the icon directory into one
      ES module, stripping a [fill] attribute without checking that there is
      one;
    - [src/iconFormating.py]: both passes in one script, the stripper being
      guarded by a presence check.  As it is shipped this file is not a
      Python program: it opens with a block comment between slash-star and
      star-slash (lines 1 to 8), and its last string literal is broken over
      lines 54 and 55, so that the interpreter rejects it before any
      statement runs.  Its statements are embedded for the values they
      compute (the rename loop, the name derivation, the stripper, the
      accumulation loop); no function stands for a run of the whole file.
      The runs that can be observed are those of [temprename.py] and
      [iconjs.py].

    Python strings are modelled as lists of characters ([list ascii], the
    texts at hand being ASCII), indices as [Z] so that the [-1] returned by
    [find]/[rfind] and its use as a slice bound are kept, the icon directory
    as a finite map from file names to contents, and an uncaught exception as
    [None]. *)

From Stdlib Require Import ZArith Ascii String List Lia Bool.
From stdpp Require Import base option list gmap strings.

Local Open Scope Z_scope.

(** ** Python string primitives *)

Module Py.

Definition str : Type := list ascii.

Definition lit (s : string) : str := list_ascii_of_string s.

(** The double quote and the line feed, which a Rocq literal cannot hold. *)
Definition dq : ascii := ascii_of_nat 34.
Definition LF : ascii := ascii_of_nat 10.

(** [len(s)] *)
Definition len (s : str) : Z := Z.of_nat (length s).

(** [s.startswith(p)] *)
Fixpoint startswith (s p : str) : bool :=
  match p, s with
  | [], _ => true
  | _ :: _, [] => false
  | a :: p', b :: s' => Ascii.eqb a b && startswith s' p'
  end.

(** [s.endswith(p)] *)
Definition endswith (s p : str) : bool :=
  bool_decide (drop (length s - length p)%nat s = p).

(** Lowest index at which [sub] occurs in [s], if any. *)
Fixpoint find_nat (s sub : str) : option nat :=
  if startswith s sub then Some 0%nat
  else match s with
       | [] => None
       | _ :: s' => S <$> find_nat s' sub
       end.

(** Highest index at which [sub] occurs in [s], if any. *)
Fixpoint rfind_nat (s sub : str) : option nat :=
  match s with
  | [] => if startswith [] sub then Some 0%nat else None
  | _ :: s' =>
      match rfind_nat s' sub with
      | Some i => Some (S i)
      | None => if startswith s sub then Some 0%nat else None
      end
  end.

(** Python reports a missing substring as [-1]. *)
Definition index_or_minus1 (o : option nat) : Z :=
  match o with
  | Some i => Z.of_nat i
  | None => -1
  end.

(** [s.find(sub)] and [s.rfind(sub)] *)
Definition find (s sub : str) : Z := index_or_minus1 (find_nat s sub).
Definition rfind (s sub : str) : Z := index_or_minus1 (rfind_nat s sub).

(** A slice bound: a negative bound counts from the end, and every bound is
    clamped to [0 .. len]. *)
Definition bound (n : nat) (i : Z) : nat :=
  Z.to_nat (if i <? 0 then Z.max 0 (i + Z.of_nat n) else Z.min i (Z.of_nat n)).

(** [s[:j]] and [s[i:]] *)
Definition slice_to (s : str) (j : Z) : str := take (bound (length s) j) s.
Definition slice_from (s : str) (i : Z) : str := drop (bound (length s) i) s.

(** [s.replace(old, new)] for one-character [old] and [new], the only use
    the scripts make of it. *)
Definition replace1 (old new : ascii) (s : str) : str :=
  map (fun c => if Ascii.eqb c old then new else c) s.

(** [s.upper()] on ASCII text: the letters [a..z] move to [A..Z]. *)
Definition upper_char (c : ascii) : ascii :=
  let n := nat_of_ascii c in
  if ((97 <=? n) && (n <=? 122))%nat then ascii_of_nat (n - 32) else c.

Definition upper (s : str) : str := map upper_char s.

End Py.

Import Py.

(** ** The icon directory *)

(** File names to file contents, the contents being the texts that [read]
    returns; only regular files are kept, as [isfile] filters the listing. *)
Abbreviation directory := (gmap (list ascii) (list ascii)).

(** The icon directory as the rename loop meets it: its regular files,
    its sub-directories and its parent, the directories with the names of
    their entries.  An entry is a regular file or a directory, never both,
    and no regular file is named [.] or [..]. *)
Record tree : Type := Tree {
  regular : directory;
  subdirs : gmap (list ascii) (list (list ascii));
  parent : list (list ascii)
}.

(** [shutil.move(dir+src, dir+dst)] for a regular file [src].  A missing
    [src] raises.  When [dst] is a regular file, or names nothing, this is
    [os.rename], which replaces an existing [dst].  When [dst] names a
    directory the file is moved into it under its own name, and an entry of
    that name already there raises: always so for the directory itself,
    [.], which holds [src]. *)
Definition move (src dst : str) (t : tree) : option tree :=
  content ← regular t !! src;
  if bool_decide (is_Some (regular t !! dst)) then
    Some (Tree (<[dst := content]> (delete src (regular t))) (subdirs t) (parent t))
  else if bool_decide (dst = lit ".") then None
  else if bool_decide (dst = lit "..") then
    if bool_decide (src ∈ parent t) then None
    else Some (Tree (delete src (regular t)) (subdirs t) (src :: parent t))
  else
    match subdirs t !! dst with
    | Some names =>
        if bool_decide (src ∈ names) then None
        else Some (Tree (delete src (regular t))
                        (<[dst := src :: names]> (subdirs t)) (parent t))
    | None =>
        Some (Tree (<[dst := content]> (delete src (regular t))) (subdirs t) (parent t))
    end.

(** ** temprename.py, and the first pass of iconFormating.py *)

Module TempRename.

Definition marker : str := lit "dp_".

(** [file[:file[:file.find("dp_")].rfind("_")] + file[file.rfind("."):]] *)
Definition newName (file : str) : str :=
  slice_to file (rfind (slice_to file (find file marker)) (lit "_"))
  ++ slice_from file (rfind file (lit ".")).

(** One iteration of the loop: [continue] when the marker is absent. *)
Definition rename_file (file : str) (t : tree) : option tree :=
  if find file marker =? -1 then Some t
  else move file (newName file) t.

(** [for file in files: ...] over the listing taken before the loop. *)
Fixpoint rename_loop (files : list str) (t : tree) : option tree :=
  match files with
  | [] => Some t
  | file :: rest => t' ← rename_file file t; rename_loop rest t'
  end.

End TempRename.

(** ** The statements of iconFormating.py *)

Module IconFormating.

(** The first loop (lines 20 to 24) is the loop of [temprename.py], word
    for word. *)
Definition rename_pass := TempRename.rename_loop.

(** [files = [f for f in listdir(dir) if ... and f.endswith(".svg")]] *)
Definition svg_files (listing : list str) : list str :=
  filter (fun f => endswith f (lit ".svg") = true) listing.

(** [file[:file.rfind(".")].replace("-", "_").upper() + "_SVG"] *)
Definition constName (file : str) : str :=
  upper (replace1 "-" "_" (slice_to file (rfind file (lit ".")))) ++ lit "_SVG".

Definition fillKey : str := lit "fill=" ++ [dq].

(** The guarded stripper: the span is computed only when the
    key is found. *)
Definition strip_fill (icon : str) : str :=
  let startFill := find icon fillKey in
  if negb (startFill =? -1) then
    let endFill :=
      find (slice_from icon (startFill + len fillKey)) [dq]
      + startFill + len fillKey + 1 in
    slice_to icon startFill ++ slice_from icon endFill
  else icon.

(** The two accumulators of the loop. *)
Record acc : Type := Acc { icons : str; iconNames : str }.

Definition init : acc := Acc [] (lit "{").

(** The body of the loop, once the file has been read into [icon]. *)
Definition body (file icon : str) (a : acc) : acc :=
  let name := constName file in
  let icon := strip_fill icon in
  let icons := icons a ++ lit "const " ++ name ++ lit " = `" ++ icon ++ lit "`" ++ [LF] in
  let iconNames :=
    if negb (bool_decide (iconNames a = lit "{")) then iconNames a ++ lit ","
    else iconNames a in
  Acc icons (iconNames ++ lit " " ++ name ++ lit " ").

(** [for file in files: with open(dir+file) ...]: an unreadable file raises. *)
Fixpoint loop (d : directory) (files : list str) (a : acc) : option acc :=
  match files with
  | [] => Some a
  | file :: rest => icon ← d !! file; loop d rest (body file icon a)
  end.

(** The export statement, the f-string being ["\nexport "] followed by
    [iconNames].  The literal that closes the statement is the one broken
    over lines 54 and 55; it is read as the closing brace, the semicolon and
    a line feed. *)
Definition finalize (a : acc) : str :=
  icons a ++ [LF] ++ lit "export " ++ iconNames a ++ lit "};" ++ [LF].

(** The text of the generated module for the files [files], in that order. *)
Definition module_text (d : directory) (files : list str) : option str :=
  finalize <$> loop d files init.

End IconFormating.

(** ** iconjs.py: the same generator with the unguarded stripper *)

Module IconJs.

(** The listing filter, the name derivation and the key are, character for
    character, those of [iconFormating.py]. *)
Definition svg_files := IconFormating.svg_files.
Definition constName := IconFormating.constName.
Definition fillKey := IconFormating.fillKey.

(** No presence check: a [startFill] of [-1] is used as it comes, and the
    closing quote is searched from [startFill], where the opening one is
    found first. *)
Definition strip_fill (icon : str) : str :=
  let startFill := find icon fillKey in
  let endFill := find (slice_from icon startFill) [dq] + startFill + len fillKey in
  slice_to icon startFill ++ slice_from icon (endFill + 1).

Definition body (file icon : str) (a : IconFormating.acc) : IconFormating.acc :=
  let name := constName file in
  let icon := strip_fill icon in
  let icons :=
    IconFormating.icons a ++ lit "const " ++ name ++ lit " = `" ++ icon ++ lit "`" ++ [LF] in
  let iconNames :=
    if negb (bool_decide (IconFormating.iconNames a = lit "{"))
    then IconFormating.iconNames a ++ lit ","
    else IconFormating.iconNames a in
  IconFormating.Acc icons (iconNames ++ lit " " ++ name ++ lit " ").

Fixpoint loop (d : directory) (files : list str) (a : IconFormating.acc)
  : option IconFormating.acc :=
  match files with
  | [] => Some a
  | file :: rest => icon ← d !! file; loop d rest (body file icon a)
  end.

(** Here the export statement has no trailing line feed. *)
Definition finalize (a : IconFormating.acc) : str :=
  IconFormating.icons a ++ [LF] ++ lit "export " ++ IconFormating.iconNames a ++ lit "};".

Definition module_text (d : directory) (files : list str) : option str :=
  finalize <$> loop d files IconFormating.init.

(** The whole script: list, filter, generate, write [icons.js]. *)
Definition generate (listing : list str) (d : directory) : option directory :=
  text ← module_text d (svg_files listing);
  Some (<[lit "icons.js" := text]> d).

End IconJs.

(** ** Vocabulary of the statements *)

(** [s] holds no occurrence of [sub]. *)
Definition absent (sub s : str) : Prop := forall pre post, s <> pre ++ sub ++ post.

(** [pre ++ sub ++ post] splits [s] at its first occurrence of [sub]. *)
Definition first_occurrence (s sub pre post : str) : Prop :=
  s = pre ++ sub ++ post /\
  forall pre' post', s = pre' ++ sub ++ post' -> (length pre <= length pre')%nat.

(** Every offset at which [sub] occurs in [s], in increasing order. *)
Fixpoint occurrences_from (i : nat) (s sub : str) : list nat :=
  (if startswith s sub then [i] else [])
  ++ match s with
     | [] => []
     | _ :: s' => occurrences_from (S i) s' sub
     end.

Definition occurrences (s sub : str) : list nat := occurrences_from 0 s sub.

(** A fill attribute inside [s]: the key, a value free of double quotes, and
    the closing double quote. *)
Definition fill_attribute (s pre value post : str) : Prop :=
  s = pre ++ IconFormating.fillKey ++ value ++ dq :: post /\ dq ∉ value.

Definition no_fill_attribute (s : str) : Prop :=
  forall pre value post, ~ fill_attribute s pre value post.

(** [s] holds exactly one fill attribute, the one at [pre]. *)
Definition only_fill_attribute (s pre value post : str) : Prop :=
  fill_attribute s pre value post /\
  forall pre' value' post', fill_attribute s pre' value' post' -> pre' = pre.

(** The offsets of the fill attributes of [s]: the occurrences of the key
    that some double quote follows. *)
Definition fill_attributes (s : str) : list nat :=
  filter (fun i => dq ∈ drop (i + length IconFormating.fillKey)%nat s)
         (occurrences s IconFormating.fillKey).

(** A text with no attribute at all, whose character data holds the key. *)
Definition key_in_text : str :=
  lit "<svg><desc>fill=" ++ [dq] ++ lit "</desc></svg>".

(** An icon whose only fill attribute has a value of seven characters. *)
Definition wide_fill_svg : str :=
  lit "<svg fill=" ++ [dq] ++ lit "#000000" ++ [dq] ++ lit "/>".

(** The two icons of the worked example. *)
Definition home_svg : str :=
  lit "<svg fill=" ++ [dq] ++ lit "#000" ++ [dq]
  ++ lit " d=" ++ [dq] ++ lit "M0 0" ++ [dq] ++ lit "/>".

Definition search_icon_svg : str :=
  lit "<svg d=" ++ [dq] ++ lit "M1 1" ++ [dq] ++ lit "/>".

(** [file] ends with the extension [. ext], its last dot being the one
    after [stem]. *)
Definition last_dot (file stem ext : str) : Prop :=
  file = stem ++ "."%char :: ext /\ "."%char ∉ ext.

(** [portion] is what [file] holds before the underscore-delimited segment
    in which its first marker starts: nothing when that segment is the first
    one, and otherwise the text before the underscore that opens it. *)
Inductive before_marker_segment (file : str) : str -> Prop :=
  | marker_in_first_segment seg rest :
      first_occurrence file TempRename.marker seg rest ->
      "_"%char ∉ seg ->
      before_marker_segment file []
  | marker_in_later_segment pre seg rest :
      first_occurrence file TempRename.marker (pre ++ "_"%char :: seg) rest ->
      "_"%char ∉ seg ->
      before_marker_segment file pre.

(** The new name the specification announces for a file with a marker. *)
Definition announced_newName (file : str) : Prop :=
  forall portion stem ext,
    before_marker_segment file portion -> last_dot file stem ext ->
    TempRename.newName file = portion ++ "."%char :: ext.


(** A directory of regular files only, with an empty parent. *)
Definition files_only (d : directory) : tree := Tree d ∅ [].

(** The directory of the worked example. *)
Definition example_dir : directory :=
  <[lit "home.svg" := home_svg]> (<[lit "search-icon.svg" := search_icon_svg]> ∅).

(** Two files whose names give the same constant name. *)
Definition colliding_dir : directory :=
  <[lit "a-b.svg" := lit "<svg/>"]> (<[lit "a_b.svg" := lit "<g/>"]> ∅).

(** The files read: each entry pairs a file with the content found. *)
Definition read_from (d : directory) (entries : list (str * str)) : Prop :=
  Forall (fun e => d !! e.1 = Some e.2) entries.

(** The declaration of one icon, its line of the module, [strip] being the
    stripper of the script at hand. *)
Definition declaration (strip : str -> str) (file content : str) : str :=
  lit "const " ++ IconFormating.constName file ++ lit " = `"
  ++ strip content ++ lit "`" ++ [LF].

(** One declaration for each file read, in the order of the files. *)
Definition declarations (strip : str -> str) (entries : list (str * str)) : str :=
  concat (map (fun e => declaration strip e.1 e.2) entries).

(** The names between the braces of the export statement: each one between
    two spaces, a comma before each but the first. *)
Definition export_entry (name : str) : str := lit " " ++ name ++ lit " ".

Definition export_names (names : list str) : str :=
  match names with
  | [] => []
  | name :: rest =>
      export_entry name ++ concat (map (fun n => lit "," ++ export_entry n) rest)
  end.

(** The layout of a module, from the files read and their constant names;
    [tail] is what follows the export statement. *)
Definition module_layout (strip : str -> str) (tail : str)
    (entries : list (str * str)) : str :=
  declarations strip entries ++ [LF] ++ lit "export {"
  ++ export_names (IconFormating.constName <$> entries.*1) ++ lit "};" ++ tail.

(** The same layout, written out around two files [e1] and [e2] that share
    the constant name [name]. *)
Definition colliding_layout (strip : str -> str) (tail : str)
    (before : list (str * str)) (e1 : str * str) (between : list (str * str))
    (e2 : str * str) (after : list (str * str)) (name : str) : str :=
  declarations strip before
  ++ (lit "const " ++ name ++ lit " = `" ++ strip e1.2 ++ lit "`" ++ [LF])
  ++ declarations strip between
  ++ (lit "const " ++ name ++ lit " = `" ++ strip e2.2 ++ lit "`" ++ [LF])
  ++ declarations strip after
  ++ [LF] ++ lit "export {"
  ++ export_names ((IconFormating.constName <$> before.*1) ++ name
                   :: (IconFormating.constName <$> between.*1) ++ name
                   :: (IconFormating.constName <$> after.*1))
  ++ lit "};" ++ tail.

(** The body shared by the loops of the two generators, up to the stripper. *)
Definition body_with (strip : str -> str) (file icon : str)
    (a : IconFormating.acc) : IconFormating.acc :=
  IconFormating.Acc
    (IconFormating.icons a ++ declaration strip file icon)
    ((if negb (bool_decide (IconFormating.iconNames a = lit "{"))
      then IconFormating.iconNames a ++ lit ","
      else IconFormating.iconNames a)
     ++ export_entry (IconFormating.constName file)).

(** The number of declarations of [name] that a module text shows. *)
Definition declared (text name : str) : nat :=
  length (occurrences text (lit "const " ++ name ++ lit " = ")).

(* ------------------------------------------------------------------ *)
(** * Properties *)

Local Close Scope Z_scope.

(** ** Searching *)

Section Searching.

Implicit Types (s p sub pre post : str) (c : ascii).

Lemma startswith_nil s : startswith s [] = true.
Proof. by destruct s. Qed.

Lemma startswith_app p r : startswith (p ++ r) p = true.
Proof.
  induction p as [|a p IH]; simpl; [apply startswith_nil|].
  by rewrite Ascii.eqb_refl.
Qed.

Lemma startswith_inv s p : startswith s p = true -> s = p ++ drop (length p) s.
Proof.
  revert s; induction p as [|a p IH]; intros [|b s]; simpl; try done.
  intros [Hab Hs]%andb_prop. apply Ascii.eqb_eq in Hab as ->.
  f_equal. by apply IH.
Qed.

Lemma startswith_true_iff s p : startswith s p = true <-> exists r, s = p ++ r.
Proof.
  split.
  - intros H. eexists. by apply startswith_inv.
  - intros [r ->]. apply startswith_app.
Qed.

Lemma startswith_single c s : startswith s [c] = true <-> exists r, s = c :: r.
Proof. apply startswith_true_iff. Qed.

Lemma find_nat_unfold s sub :
  find_nat s sub =
  if startswith s sub then Some 0
  else match s with [] => None | _ :: s' => S <$> find_nat s' sub end.
Proof. by destruct s. Qed.

(** [find_nat] returns an occurrence, and no occurrence starts before it. *)
Lemma find_nat_Some s sub i :
  find_nat s sub = Some i ->
  i <= length s /\ startswith (drop i s) sub = true /\
  forall j, j < i -> startswith (drop j s) sub = false.
Proof.
  revert i; induction s as [|a s IH]; intros i; rewrite find_nat_unfold.
  - destruct (startswith [] sub) eqn:E; [|done].
    intros [= <-]. split; [done|]. split; [done|]. intros j Hj; lia.
  - destruct (startswith (a :: s) sub) eqn:E.
    + intros [= <-]. split; [simpl; lia|]. split; [done|]. intros j Hj; lia.
    + destruct (find_nat s sub) as [k|] eqn:Ek; [|done].
      intros [= <-]. destruct (IH k eq_refl) as (Hle & Hk & Hlt).
      split; [simpl; lia|]. split; [done|].
      intros [|j] Hj; [done|]. apply Hlt. lia.
Qed.

Lemma find_nat_None s sub :
  find_nat s sub = None -> forall j, startswith (drop j s) sub = false.
Proof.
  induction s as [|a s IH]; rewrite find_nat_unfold.
  - destruct (startswith [] sub) eqn:E; [done|]. intros _ j. by rewrite drop_nil.
  - destruct (startswith (a :: s) sub) eqn:E; [done|].
    destruct (find_nat s sub) eqn:Ek; [done|].
    intros _ [|j]; [done|]. by apply IH.
Qed.

(** The first occurrence is the one [find_nat] reports. *)
Lemma find_nat_first pre sub post :
  (forall j, j < length pre -> startswith (drop j (pre ++ sub ++ post)) sub = false) ->
  find_nat (pre ++ sub ++ post) sub = Some (length pre).
Proof.
  induction pre as [|a pre IH]; intros H; rewrite find_nat_unfold.
  - simpl. by rewrite startswith_app.
  - pose proof (H 0 ltac:(simpl; lia)) as H0. rewrite drop_0 in H0.
    rewrite H0. simpl. rewrite IH; [done|].
    intros j Hj. apply (H (S j)). simpl; lia.
Qed.

Lemma find_nat_absent s sub : absent sub s <-> find_nat s sub = None.
Proof.
  split.
  - intros H. destruct (find_nat s sub) as [i|] eqn:E; [|done].
    apply find_nat_Some in E as (_ & E & _).
    apply startswith_inv in E. exfalso. apply (H (take i s) (drop (length sub) (drop i s))).
    by rewrite <- E, take_drop.
  - intros H pre post ->.
    pose proof (find_nat_None _ _ H (length pre)) as E.
    by rewrite drop_app_length, startswith_app in E.
Qed.

Lemma find_absent s sub : absent sub s <-> find s sub = (-1)%Z.
Proof.
  rewrite find_nat_absent. unfold find.
  destruct (find_nat s sub); simpl; split; intros; (done || lia).
Qed.

Lemma find_lower_bound s sub : (-1 <= find s sub)%Z.
Proof. unfold find. destruct (find_nat s sub); simpl; lia. Qed.

(** Searching one character. *)
Lemma find_nat_char c pre post :
  c ∉ pre -> find_nat (pre ++ c :: post) [c] = Some (length pre).
Proof.
  intros Hc. apply (find_nat_first pre [c] post). intros j Hj.
  destruct (startswith _ _) eqn:E; [|done]. exfalso.
  apply startswith_single in E as [r E]. apply Hc.
  apply list_elem_of_lookup. exists j.
  assert (drop j (pre ++ [c] ++ post) !! 0 = Some c) as H by by rewrite E.
  rewrite lookup_drop, Nat.add_0_r, lookup_app_l in H; done.
Qed.

Lemma find_nat_char_absent c s : c ∉ s -> find_nat s [c] = None.
Proof.
  intros Hc. apply find_nat_absent. intros pre post ->.
  apply Hc. set_solver.
Qed.

End Searching.

(** ** Slicing *)

Section Slicing.

Implicit Types (s : str) (i : nat).

Lemma bound_nat n i : bound n (Z.of_nat i) = min i n.
Proof. unfold bound. destruct (Z.ltb_spec (Z.of_nat i) 0); lia. Qed.

Lemma bound_minus1 n : bound n (-1) = n - 1.
Proof. unfold bound. simpl. lia. Qed.

Lemma slice_to_nat s i : slice_to s (Z.of_nat i) = take i s.
Proof.
  unfold slice_to. rewrite bound_nat.
  destruct (Nat.le_ge_cases i (length s)) as [H|H].
  - by rewrite Nat.min_l.
  - rewrite Nat.min_r by done. by rewrite !take_ge.
Qed.

Lemma slice_from_nat s i : slice_from s (Z.of_nat i) = drop i s.
Proof.
  unfold slice_from. rewrite bound_nat.
  destruct (Nat.le_ge_cases i (length s)) as [H|H].
  - by rewrite Nat.min_l.
  - rewrite Nat.min_r by done. by rewrite !drop_ge.
Qed.

Lemma slice_to_minus1 s : slice_to s (-1) = take (length s - 1) s.
Proof. unfold slice_to. by rewrite bound_minus1. Qed.

Lemma slice_from_minus1 s : slice_from s (-1) = drop (length s - 1) s.
Proof. unfold slice_from. by rewrite bound_minus1. Qed.

End Slicing.

(** ** Occurrences *)

Section Occurrences.

Implicit Types (s sub pre post : str).

Lemma first_occurrence_find_nat s sub pre post :
  first_occurrence s sub pre post -> find_nat s sub = Some (length pre).
Proof.
  intros [-> Hmin]. apply find_nat_first. intros j Hj.
  destruct (startswith _ _) eqn:E; [|done]. exfalso.
  apply startswith_inv in E.
  specialize (Hmin (take j (pre ++ sub ++ post))
                   (drop (length sub) (drop j (pre ++ sub ++ post)))).
  rewrite <- E, take_drop in Hmin. specialize (Hmin eq_refl).
  rewrite length_take in Hmin. lia.
Qed.

Lemma find_nat_first_occurrence s sub pre post :
  s = pre ++ sub ++ post -> find_nat s sub = Some (length pre) ->
  first_occurrence s sub pre post.
Proof.
  intros Hs Hf. split; [done|]. intros pre' post' Hs'.
  apply find_nat_Some in Hf as (_ & _ & Hlt).
  destruct (Nat.le_gt_cases (length pre) (length pre')) as [|Hgt]; [done|].
  specialize (Hlt _ Hgt). by rewrite Hs', drop_app_length, startswith_app in Hlt.
Qed.

Lemma occurrences_from_unfold i s sub :
  occurrences_from i s sub =
  (if startswith s sub then [i] else [])
  ++ match s with [] => [] | _ :: s' => occurrences_from (S i) s' sub end.
Proof. by destruct s. Qed.

Lemma occurrences_from_spec s sub i n :
  n ∈ occurrences_from i s sub <->
  exists j, n = i + j /\ j <= length s /\ startswith (drop j s) sub = true.
Proof.
  revert i; induction s as [|a s IH]; intros i; rewrite occurrences_from_unfold.
  - rewrite app_nil_r. destruct (startswith [] sub) eqn:E.
    + rewrite list_elem_of_singleton. split.
      * intros ->. exists 0. rewrite drop_nil. split; [lia|]. split; [simpl; lia|done].
      * intros (j & -> & Hj & _). simpl in Hj. lia.
    + split; [by intros ?%elem_of_nil|].
      intros (j & _ & _ & H). rewrite drop_nil in H. congruence.
  - rewrite elem_of_app, IH. split.
    + intros [H|(j & -> & Hj & H)].
      * destruct (startswith (a :: s) sub) eqn:E; [|by apply elem_of_nil in H].
        apply list_elem_of_singleton in H as ->. exists 0.
        split; [lia|]. split; [simpl; lia|done].
      * exists (S j). split; [lia|]. split; [simpl; lia|done].
    + intros ([|j] & -> & Hj & H).
      * left. rewrite drop_0 in H. rewrite H, Nat.add_0_r. apply list_elem_of_singleton; done.
      * right. exists j. simpl in Hj. split; [lia|]. split; [lia|done].
Qed.

Lemma occurs_in_occurrences pre sub post :
  length pre ∈ occurrences (pre ++ sub ++ post) sub.
Proof.
  apply occurrences_from_spec. exists (length pre). split; [done|].
  split; [rewrite length_app; lia|]. by rewrite drop_app_length, startswith_app.
Qed.

End Occurrences.

(** ** The fill stripper *)

Section Stripper.

Import IconFormating.

Implicit Types (icon pre value post rest : str).

Lemma drop_app_two {A} (l k r : list A) :
  drop (length l + length k) (l ++ k ++ r) = r.
Proof. by rewrite app_assoc, <- length_app, drop_app_length. Qed.

Lemma first_dq_split rest :
  dq ∈ rest -> exists value post, rest = value ++ dq :: post /\ dq ∉ value.
Proof.
  induction rest as [|c rest IH]; [by intros ?%elem_of_nil|].
  destruct (decide (c = dq)) as [->|Hc].
  - intros _. exists [], rest. split; [done|]. apply not_elem_of_nil.
  - intros [?|Hin]%elem_of_cons; [done|].
    destruct (IH Hin) as (value & post & -> & Hv).
    exists (c :: value), post. split; [done|].
    intros [?|?]%elem_of_cons; [congruence|done].
Qed.

(** Every fill attribute is listed by [fill_attributes]. *)
Lemma fill_attribute_listed icon pre value post :
  fill_attribute icon pre value post -> length pre ∈ fill_attributes icon.
Proof.
  intros [-> _]. apply list_elem_of_filter. split.
  - rewrite drop_app_two. set_solver.
  - apply occurs_in_occurrences.
Qed.

(** The attribute of a text that holds only one is its first occurrence of
    the key: an earlier key would be closed by the quote of this one. *)
Lemma only_fill_attribute_first icon pre value post :
  only_fill_attribute icon pre value post ->
  first_occurrence icon fillKey pre (value ++ dq :: post).
Proof.
  intros [[-> Hv] Huniq]. split; [done|]. intros pre' post' E.
  destruct (Nat.le_gt_cases (length pre) (length pre')) as [|Hlt]; [done|exfalso].
  assert (dq ∈ post') as Hin.
  { assert (post' = drop (length pre' + length fillKey)
                         (pre ++ fillKey ++ value ++ dq :: post)) as ->
      by by rewrite E, drop_app_two.
    apply list_elem_of_lookup. exists (length pre + 5 - (length pre' + 6)).
    rewrite lookup_drop.
    replace (length pre' + length fillKey + (length pre + 5 - (length pre' + 6)))
      with (length pre + 5) by (change (length fillKey) with 6; lia).
    rewrite lookup_app_r by lia.
    by replace (length pre + 5 - length pre) with 5 by lia. }
  destruct (first_dq_split _ Hin) as (value' & post'' & -> & Hv').
  assert (pre' = pre) as -> by by eapply Huniq.
  lia.
Qed.

(** What the guarded stripper does once the key is found: the text before
    the key is kept, and the text after it from just past its first double
    quote, or whole when it has none ([find] then gives [-1]). *)
Lemma strip_fill_at_first_key icon pre rest :
  first_occurrence icon fillKey pre rest ->
  strip_fill icon = pre ++ drop (Z.to_nat (find rest [dq] + 1)) rest.
Proof.
  intros Hfirst. pose proof (first_occurrence_find_nat _ _ _ _ Hfirst) as Hf.
  destruct Hfirst as [-> _].
  assert (find (pre ++ fillKey ++ rest) fillKey = Z.of_nat (length pre)) as Hfz
    by (unfold find; by rewrite Hf).
  unfold strip_fill. rewrite !Hfz.
  destruct (Z.eqb_spec (Z.of_nat (length pre)) (-1)) as [|_]; [lia|]. cbn [negb].
  replace (Z.of_nat (length pre) + len fillKey)%Z
    with (Z.of_nat (length pre + length fillKey)) by (unfold len; lia).
  rewrite slice_from_nat, drop_app_two.
  pose proof (find_lower_bound rest [dq]) as Hge.
  replace (find rest [dq] + Z.of_nat (length pre) + len fillKey + 1)%Z
    with (Z.of_nat (length pre + length fillKey + Z.to_nat (find rest [dq] + 1)))
    by (unfold len; lia).
  rewrite slice_to_nat, slice_from_nat, take_app_length.
  by rewrite <- drop_drop, drop_app_two.
Qed.

(** The guard is exactly the presence of the key: whenever the key occurs,
    closed or not, the guarded stripper shortens the text. *)
Lemma strip_fill_shortens icon :
  ~ absent fillKey icon -> length (strip_fill icon) + 6 <= length icon.
Proof.
  intros H. destruct (find_nat icon fillKey) as [i|] eqn:E.
  - pose proof E as (_ & Hi & _)%find_nat_Some. apply startswith_inv in Hi.
    assert (first_occurrence icon fillKey (take i icon)
              (drop (length fillKey) (drop i icon))) as Hfirst.
    { apply find_nat_first_occurrence; [by rewrite <- Hi, take_drop|].
      rewrite E. f_equal. rewrite length_take.
      apply find_nat_Some in E as (Hle & _). lia. }
    rewrite (strip_fill_at_first_key _ _ _ Hfirst).
    destruct Hfirst as [Hicon%(f_equal length) _].
    rewrite !length_app in Hicon. rewrite length_app, length_drop.
    change (length fillKey) with 6 in *. lia.
  - by apply find_nat_absent in E.
Qed.

(** When the text holds exactly one fill attribute (key, value without
    double quote, closing double quote), the guarded stripper returns the
    text before it followed by the text after it. *)
Lemma strip_fill_only_attribute icon pre value post :
  only_fill_attribute icon pre value post -> strip_fill icon = pre ++ post.
Proof.
  intros H. pose proof (only_fill_attribute_first _ _ _ _ H) as Hfirst.
  destruct H as [[_ Hv] _].
  rewrite (strip_fill_at_first_key _ _ _ Hfirst). f_equal.
  unfold find. rewrite find_nat_char by done. cbn [index_or_minus1].
  replace (Z.to_nat (Z.of_nat (length value) + 1)) with (length (value ++ [dq]))
    by (rewrite length_app; simpl; lia).
  replace (value ++ dq :: post) with ((value ++ [dq]) ++ post)
    by by rewrite <- app_assoc.
  apply drop_app_length.
Qed.

(** A way to check on a given text that an attribute is the only one. *)
Lemma only_fill_attribute_by_eval icon pre value post :
  fill_attribute icon pre value post -> fill_attributes icon = [length pre] ->
  only_fill_attribute icon pre value post.
Proof.
  intros H E. split; [done|]. intros pre' value' post' H'.
  pose proof (fill_attribute_listed _ _ _ _ H') as Hin.
  rewrite E in Hin. apply list_elem_of_singleton in Hin.
  destruct H as [H _], H' as [H' _].
  rewrite <- (take_app_length pre' (fillKey ++ value' ++ dq :: post')), <- H', Hin.
  by rewrite H, take_app_length.
Qed.

Example strip_fill_home_svg :
  strip_fill home_svg = lit "<svg " ++ lit " d=" ++ [dq] ++ lit "M0 0" ++ [dq] ++ lit "/>".
Proof.
  apply (strip_fill_only_attribute _ _ (lit "#000")), only_fill_attribute_by_eval.
  - split; [reflexivity|]. apply (bool_decide_unpack _). by vm_compute.
  - by vm_compute.
Qed.

End Stripper.

(** ** The claims on the fill stripper *)

Section StripperClaims.

Import IconFormating.

(** The guard of lines 41 to 45 tests the key, not a whole attribute:
    [key_in_text] holds no fill attribute, and the guarded stripper still cuts
    the key out of its character data, the second [find] giving [-1]. *)
Lemma strip_fill_changes_key_in_text :
  no_fill_attribute key_in_text /\ strip_fill key_in_text <> key_in_text.
Proof.
  split.
  - intros pre value post H%fill_attribute_listed.
    assert (fill_attributes key_in_text = []) as E by by vm_compute.
    rewrite E in H. by apply elem_of_nil in H.
  - by vm_compute.
Qed.

(** The sibling of the stripper of iconjs.py: with the key absent the
    guarded stripper of lines 41 to 45 returns the text unchanged. *)
Lemma strip_fill_absent_unchanged icon :
  absent fillKey icon -> strip_fill icon = icon.
Proof.
  intros H%find_absent. unfold strip_fill. by rewrite H.
Qed.

(** C1 fails on iconjs.py: the second icon of the worked example holds no
    fill attribute, not even the key, and the stripper of iconjs.py, which
    has no presence check and takes the [-1] of [find] for an index, drops
    its last character and repeats its tail, where the guarded stripper
    returns it unchanged. *)
Theorem iconjs_strip_fill_damages_keyless :
  no_fill_attribute search_icon_svg
  /\ absent fillKey search_icon_svg
  /\ IconJs.strip_fill search_icon_svg
     = lit "<svg d=" ++ [dq] ++ lit "M1 1" ++ [dq] ++ lit "/d="
       ++ [dq] ++ lit "M1 1" ++ [dq] ++ lit "/>"
  /\ IconJs.strip_fill search_icon_svg <> search_icon_svg
  /\ IconFormating.strip_fill search_icon_svg = search_icon_svg.
Proof.
  assert (absent fillKey search_icon_svg) as H.
  { apply find_absent. vm_compute. reflexivity. }
  split.
  { intros pre value post [E _]. apply (H pre (value ++ dq :: post)). exact E. }
  split; [exact H|]. split; [by vm_compute|]. split; [by vm_compute|].
  by apply strip_fill_absent_unchanged.
Qed.

(** C2 holds of iconFormating.py and fails on iconjs.py: in an icon whose
    only fill attribute has a value of seven characters, the guarded
    stripper removes the attribute and nothing else, whereas the stripper of
    iconjs.py, which looks for the closing quote from the key onwards and so
    finds the opening one, removes twelve characters whatever the value, and
    leaves here the end of the value and its closing quote. *)
Theorem iconjs_strip_fill_fixed_span :
  only_fill_attribute wide_fill_svg (lit "<svg ") (lit "#000000") (lit "/>")
  /\ IconFormating.strip_fill wide_fill_svg = lit "<svg " ++ lit "/>"
  /\ IconJs.strip_fill wide_fill_svg = lit "<svg 0" ++ [dq] ++ lit "/>"
  /\ IconJs.strip_fill wide_fill_svg
     = take 5 wide_fill_svg ++ drop (5 + 12) wide_fill_svg.
Proof.
  assert (only_fill_attribute wide_fill_svg (lit "<svg ") (lit "#000000") (lit "/>")) as H.
  { apply only_fill_attribute_by_eval.
    - split; [reflexivity|]. apply (bool_decide_unpack _). by vm_compute.
    - by vm_compute. }
  split; [exact H|]. split; [exact (strip_fill_only_attribute _ _ _ _ H)|].
  split; by vm_compute.
Qed.

(** C10: when the key occurs and no double quote follows its first
    occurrence, the guarded stripper removes the six characters of that
    occurrence and keeps all that follows them. *)
Theorem strip_fill_unclosed_key icon pre rest :
  first_occurrence icon fillKey pre rest -> dq ∉ rest ->
  length fillKey = 6 /\ strip_fill icon = pre ++ rest.
Proof.
  intros Hfirst Hq. split; [reflexivity|].
  rewrite (strip_fill_at_first_key _ _ _ Hfirst).
  unfold find. by rewrite find_nat_char_absent.
Qed.

Lemma strip_fill_unclosed_key_witness :
  first_occurrence key_in_text fillKey (lit "<svg><desc>") (lit "</desc></svg>")
  /\ (dq ∉ lit "</desc></svg>")
  /\ length fillKey = 6
  /\ strip_fill key_in_text = lit "<svg><desc>" ++ lit "</desc></svg>".
Proof.
  assert (first_occurrence key_in_text fillKey (lit "<svg><desc>") (lit "</desc></svg>")) as H1.
  { apply find_nat_first_occurrence; [reflexivity|]. vm_compute. reflexivity. }
  assert (dq ∉ lit "</desc></svg>") as H2.
  { apply (bool_decide_unpack _). vm_compute. exact I. }
  split; [exact H1|]. split; [exact H2|].
  exact (strip_fill_unclosed_key _ _ _ H1 H2).
Defined.

End StripperClaims.

(** ** The filename normalizer *)

Section Normalizer.

Import TempRename.

Implicit Types (file pre seg rest stem ext : str) (c : ascii) (t : tree).

Lemma rfind_nat_char_absent c s : c ∉ s -> rfind_nat s [c] = None.
Proof.
  induction s as [|a s IH]; [done|].
  intros [Ha Hs]%not_elem_of_cons. cbn [rfind_nat startswith]. rewrite (IH Hs).
  by replace (Ascii.eqb c a) with false by (symmetry; by apply Ascii.eqb_neq).
Qed.

Lemma rfind_nat_char_last c pre post :
  c ∉ post -> rfind_nat (pre ++ c :: post) [c] = Some (length pre).
Proof.
  intros Hc. induction pre as [|a pre IH].
  - cbn [app rfind_nat startswith length].
    by rewrite (rfind_nat_char_absent _ _ Hc), Ascii.eqb_refl, startswith_nil.
  - cbn [app rfind_nat length]. by rewrite IH.
Qed.

Lemma rfind_last_dot file stem ext :
  last_dot file stem ext -> slice_from file (rfind file (lit ".")) = "."%char :: ext.
Proof.
  intros [-> Hext]. unfold rfind. change (lit ".") with ["."%char].
  rewrite rfind_nat_char_last by done. cbn [index_or_minus1].
  by rewrite slice_from_nat, drop_app_length.
Qed.

(** The marked prefix [file[:file.find(marker)]]. *)
Lemma slice_to_first_marker file pre rest :
  first_occurrence file marker pre rest -> slice_to file (find file marker) = pre.
Proof.
  intros H. pose proof (first_occurrence_find_nat _ _ _ _ H) as Hf.
  destruct H as [-> _]. unfold find. rewrite Hf. cbn [index_or_minus1].
  by rewrite slice_to_nat, take_app_length.
Qed.

Lemma newName_later_segment file pre seg rest stem ext :
  first_occurrence file marker (pre ++ "_"%char :: seg) rest ->
  "_"%char ∉ seg -> last_dot file stem ext ->
  newName file = pre ++ "."%char :: ext.
Proof.
  intros Hfirst Hseg Hdot. unfold newName.
  rewrite (slice_to_first_marker _ _ _ Hfirst), (rfind_last_dot _ _ _ Hdot).
  unfold rfind. change (lit "_") with ["_"%char].
  rewrite rfind_nat_char_last by done. cbn [index_or_minus1].
  destruct Hfirst as [-> _].
  by rewrite slice_to_nat, <- app_assoc, take_app_length.
Qed.


(** What a move that succeeds does to the regular files: the source goes,
    and the destination, unless it is a directory, gets its content. *)
Lemma move_regular src dst t t' :
  move src dst t = Some t' ->
  exists content,
    regular t !! src = Some content /\
    (regular t' = <[dst := content]> (delete src (regular t))
     \/ regular t' = delete src (regular t)).
Proof.
  unfold move. destruct (regular t !! src) as [content|] eqn:E; [|done]. cbn.
  intros H. exists content. split; [done|].
  repeat case_bool_decide; try done; try (injection H as <-; by auto).
  destruct (subdirs t !! dst) as [names|]; [case_bool_decide; [done|]|];
    injection H as <-; by auto.
Qed.

(** A file without the marker is no source of a move, so that the loop
    never takes its name away. *)
Lemma rename_file_keeps file f t t' :
  absent marker file -> rename_file f t = Some t' ->
  is_Some (regular t !! file) -> is_Some (regular t' !! file).
Proof.
  intros Hfile. unfold rename_file.
  destruct (Z.eqb_spec (find f marker) (-1)) as [|Hf]; [by intros [= ->]|].
  intros (content & _ & [-> | ->])%move_regular Hin.
  - destruct (decide (newName f = file)) as [->|Hne].
    + rewrite lookup_insert_eq. by eexists.
    + rewrite lookup_insert_ne by done.
      rewrite lookup_delete_ne; [done|]. intros ->. by apply find_absent in Hfile.
  - rewrite lookup_delete_ne; [done|]. intros ->. by apply find_absent in Hfile.
Qed.

Lemma rename_loop_keeps file files t t' :
  absent marker file -> rename_loop files t = Some t' ->
  is_Some (regular t !! file) -> is_Some (regular t' !! file).
Proof.
  intros Hfile. revert t. induction files as [|f files IH]; intros t.
  - by intros [= ->].
  - cbn [rename_loop]. destruct (rename_file f t) as [t1|] eqn:E; [|done].
    cbn. intros Hloop Hin. apply (IH t1 Hloop). by eapply rename_file_keeps.
Qed.

Lemma newName_no_dot file seg rest :
  first_occurrence file marker seg rest -> "_"%char ∉ seg -> "."%char ∉ file ->
  newName file = file.
Proof.
  intros Hfirst Hseg Hdot. unfold newName.
  rewrite (slice_to_first_marker _ _ _ Hfirst). unfold rfind.
  change (lit "_") with ["_"%char]. change (lit ".") with ["."%char].
  rewrite !rfind_nat_char_absent by done. cbn [index_or_minus1].
  by rewrite slice_to_minus1, slice_from_minus1, take_drop.
Qed.

Example newName_material_export :
  newName (lit "home_24dp_000000_FILL0_wght400_GRAD0_opsz24.svg") = lit "home.svg".
Proof. by vm_compute. Qed.

Example rename_loop_material_export :
  rename_loop [lit "home_24dp_000000.svg"; lit "search-icon.svg"]
    (files_only (<[lit "home_24dp_000000.svg" := home_svg]>
                   (<[lit "search-icon.svg" := search_icon_svg]> ∅)))
  = Some (files_only example_dir).
Proof. by vm_compute. Qed.

(** The marked file whose new name is the directory itself: the move
    raises although the file is there. *)
Example rename_onto_the_directory :
  newName (lit "_24dp_.") = lit "." /\
  rename_file (lit "_24dp_.") (files_only (<[lit "_24dp_." := lit "<svg/>"]> ∅)) = None.
Proof. split; by vm_compute. Qed.

Lemma rename_file_marked file pre rest t :
  first_occurrence file marker pre rest ->
  rename_file file t = move file (newName file) t.
Proof.
  intros Hf%first_occurrence_find_nat. unfold rename_file, find. rewrite Hf.
  cbn [index_or_minus1]. by destruct (Z.eqb_spec (Z.of_nat (length pre)) (-1)); [lia|].
Qed.

End Normalizer.

Ltac first_occurrence_by_eval :=
  apply find_nat_first_occurrence; [reflexivity | vm_compute; reflexivity].

Ltac not_elem_by_eval := apply (bool_decide_unpack _); vm_compute; exact I.

Ltac last_dot_by_eval := split; [reflexivity | not_elem_by_eval].

(** ** The claims on the filename normalizer *)

Section NormalizerClaims.

Import TempRename.

(** C5, as stated, fails: the marker of 24dp_x.svg starts in its first
    segment, so that the announced name is the bare extension, and the
    script computes another one. *)
Lemma announced_newName_fails : ~ announced_newName (lit "24dp_x.svg").
Proof.
  intros H. specialize (H [] (lit "24dp_x") (lit "svg")).
  assert (newName (lit "24dp_x.svg") = [] ++ "."%char :: lit "svg") as E.
  { apply H.
    - apply (marker_in_first_segment _ (lit "24") (lit "x.svg")).
      + first_occurrence_by_eval.
      + not_elem_by_eval.
    - last_dot_by_eval. }
  by vm_compute in E.
Qed.

(** C5, amended: when an underscore precedes the first marker of a filename
    that has a dot, the file is renamed to the text before the last such
    underscore (the portion before the segment holding the marker) followed
    by the text from the last dot onward. *)
Theorem newName_before_marker_segment file pre seg rest stem ext :
  first_occurrence file marker (pre ++ "_"%char :: seg) rest ->
  "_"%char ∉ seg -> last_dot file stem ext ->
  before_marker_segment file pre /\
  newName file = pre ++ "."%char :: ext /\
  forall t, rename_file file t = move file (pre ++ "."%char :: ext) t.
Proof.
  intros Hfirst Hseg Hdot.
  pose proof (newName_later_segment _ _ _ _ _ _ Hfirst Hseg Hdot) as E.
  split; [by eapply marker_in_later_segment|].
  split; [done|]. intros t. by rewrite (rename_file_marked _ _ _ _ Hfirst), E.
Qed.

Lemma newName_before_marker_segment_witness :
  first_occurrence (lit "home_24dp_000000.svg") marker
    (lit "home" ++ "_"%char :: lit "24") (lit "000000.svg")
  /\ ("_"%char ∉ lit "24")
  /\ last_dot (lit "home_24dp_000000.svg") (lit "home_24dp_000000") (lit "svg")
  /\ before_marker_segment (lit "home_24dp_000000.svg") (lit "home")
  /\ newName (lit "home_24dp_000000.svg") = lit "home" ++ "."%char :: lit "svg"
  /\ forall t, rename_file (lit "home_24dp_000000.svg") t
               = move (lit "home_24dp_000000.svg") (lit "home" ++ "."%char :: lit "svg") t.
Proof.
  assert (first_occurrence (lit "home_24dp_000000.svg") marker
            (lit "home" ++ "_"%char :: lit "24") (lit "000000.svg")) as H1
    by first_occurrence_by_eval.
  assert ("_"%char ∉ lit "24") as H2 by not_elem_by_eval.
  assert (last_dot (lit "home_24dp_000000.svg") (lit "home_24dp_000000") (lit "svg"))
    as H3 by last_dot_by_eval.
  split; [exact H1|]. split; [exact H2|]. split; [exact H3|].
  exact (newName_before_marker_segment _ _ _ _ _ _ H1 H2 H3).
Defined.

(** C8: a filename in which the marker occurs nowhere is not renamed: its
    iteration of the loop leaves the directory as it is, and whenever the
    whole loop, over any listing, ends without an error, the file still
    bears its name. *)
Theorem rename_file_unmarked file t :
  absent marker file ->
  rename_file file t = Some t /\
  forall files t',
    rename_loop files t = Some t' ->
    is_Some (regular t !! file) -> is_Some (regular t' !! file).
Proof.
  intros Hfile. split.
  - unfold rename_file. apply find_absent in Hfile. by rewrite Hfile.
  - intros files t'. by apply rename_loop_keeps.
Qed.

Lemma rename_file_unmarked_witness :
  absent marker (lit "home.svg") /\
  rename_file (lit "home.svg") (files_only example_dir) = Some (files_only example_dir) /\
  forall files t',
    rename_loop files (files_only example_dir) = Some t' ->
    is_Some (regular (files_only example_dir) !! lit "home.svg") ->
    is_Some (regular t' !! lit "home.svg").
Proof.
  assert (absent marker (lit "home.svg")) as H.
  { apply find_absent. vm_compute. reflexivity. }
  split; [exact H|].
  exact (rename_file_unmarked (lit "home.svg") (files_only example_dir) H).
Defined.



End NormalizerClaims.

(** ** The module generator *)

Section Generator.

Import IconFormating.

Implicit Types (d : directory) (entries : list (str * str)) (a : acc).

Lemma body_formating file icon a :
  IconFormating.body file icon a = body_with IconFormating.strip_fill file icon a.
Proof.
  unfold body, body_with, declaration, export_entry. cbv zeta.
  by destruct (negb _).
Qed.

Lemma body_js file icon a :
  IconJs.body file icon a = body_with IconJs.strip_fill file icon a.
Proof.
  unfold IconJs.body, body_with, declaration, export_entry. cbv zeta.
  by destruct (negb _).
Qed.

Section Folding.

Variable strip : str -> str.

Let step := fun a (e : str * str) => body_with strip e.1 e.2 a.

Lemma icons_foldl entries a :
  icons (foldl step a entries) = icons a ++ declarations strip entries.
Proof.
  revert a. induction entries as [|[file icon] entries IH]; intros a.
  - by rewrite app_nil_r.
  - cbn [foldl]. rewrite IH. unfold declarations. cbn [map concat].
    unfold step, body_with. cbn [icons fst snd]. by rewrite <- !app_assoc.
Qed.

Lemma iconNames_step a e : iconNames (step a e) <> lit "{".
Proof.
  unfold step, body_with, export_entry. cbn [iconNames].
  intros E%(f_equal length). destruct (negb _); rewrite !length_app in E; cbn in E; lia.
Qed.

(** Past the first file the accumulated names are no longer the lone brace,
    and every further name comes after a comma. *)
Lemma iconNames_foldl entries a :
  iconNames a <> lit "{" ->
  iconNames (foldl step a entries)
  = iconNames a
    ++ concat (map (fun n => lit "," ++ export_entry n) (constName <$> entries.*1)).
Proof.
  revert a. induction entries as [|[file icon] entries IH]; intros a Ha.
  - by rewrite app_nil_r.
  - cbn [foldl]. rewrite IH by apply iconNames_step.
    unfold step, body_with. cbn [iconNames fst snd].
    rewrite bool_decide_eq_false_2 by done.
    cbn [negb fmap list_fmap map concat fst]. by rewrite <- !app_assoc.
Qed.

Lemma iconNames_init entries :
  iconNames (foldl step init entries)
  = lit "{" ++ export_names (constName <$> entries.*1).
Proof.
  destruct entries as [|[file icon] entries]; [done|].
  cbn [foldl]. rewrite iconNames_foldl by apply iconNames_step.
  unfold step, body_with, init. cbn [iconNames fst snd].
  rewrite bool_decide_eq_true_2 by done.
  cbn [negb fmap list_fmap export_names fst]. by rewrite <- !app_assoc.
Qed.

Lemma finalize_foldl entries :
  IconFormating.finalize (foldl step init entries) = module_layout strip [LF] entries
  /\ IconJs.finalize (foldl step init entries) = module_layout strip [] entries.
Proof.
  unfold IconFormating.finalize, IconJs.finalize, module_layout.
  rewrite icons_foldl, iconNames_init. cbn [init icons app].
  split; by rewrite <- ?app_assoc, ?app_nil_r.
Qed.

End Folding.

Lemma loop_read d entries a :
  read_from d entries ->
  IconFormating.loop d entries.*1 a
  = Some (foldl (fun a e => body_with IconFormating.strip_fill e.1 e.2 a) a entries).
Proof.
  intros H. revert a. induction H as [|[file icon] entries Hd _ IH]; intros a; [done|].
  cbn [fmap list_fmap loop fst foldl]. cbn in Hd. rewrite Hd. cbn.
  rewrite body_formating. apply IH.
Qed.

Lemma loop_js_read d entries a :
  read_from d entries ->
  IconJs.loop d entries.*1 a
  = Some (foldl (fun a e => body_with IconJs.strip_fill e.1 e.2 a) a entries).
Proof.
  intros H. revert a. induction H as [|[file icon] entries Hd _ IH]; intros a; [done|].
  cbn [fmap list_fmap IconJs.loop fst foldl]. cbn in Hd. rewrite Hd. cbn.
  rewrite body_js. apply IH.
Qed.

(** The generated texts have the layout of [module_layout]. *)
Lemma module_text_layout d entries :
  read_from d entries ->
  IconFormating.module_text d entries.*1
  = Some (module_layout IconFormating.strip_fill [LF] entries).
Proof.
  intros H. unfold module_text. rewrite (loop_read _ _ _ H).
  cbn [fmap option_fmap option_map]. f_equal. apply finalize_foldl.
Qed.

Lemma module_text_js_layout d entries :
  read_from d entries ->
  IconJs.module_text d entries.*1 = Some (module_layout IconJs.strip_fill [] entries).
Proof.
  intros H. unfold IconJs.module_text. rewrite (loop_js_read _ _ _ H).
  cbn [fmap option_fmap option_map]. f_equal. apply finalize_foldl.
Qed.

Lemma declarations_app strip entries1 entries2 :
  declarations strip (entries1 ++ entries2)
  = declarations strip entries1 ++ declarations strip entries2.
Proof. unfold declarations. by rewrite map_app, concat_app. Qed.

Lemma declarations_cons strip e entries :
  declarations strip (e :: entries)
  = declaration strip e.1 e.2 ++ declarations strip entries.
Proof. done. Qed.

Lemma module_layout_colliding strip tail before e1 between e2 after name :
  constName e1.1 = name -> constName e2.1 = name ->
  module_layout strip tail (before ++ e1 :: between ++ e2 :: after)
  = colliding_layout strip tail before e1 between e2 after name.
Proof.
  intros <- E2. unfold module_layout, colliding_layout.
  rewrite declarations_app, declarations_cons, declarations_app, declarations_cons.
  rewrite !fmap_app, !fmap_cons, !fmap_app, !fmap_cons, E2.
  unfold declaration. rewrite E2.
  by rewrite <- !app_assoc.
Qed.

Example constName_search_icon :
  constName (lit "search-icon.svg") = lit "SEARCH_ICON_SVG".
Proof. by vm_compute. Qed.

Lemma rfind_dot_svg stem :
  slice_to (stem ++ lit ".svg") (rfind (stem ++ lit ".svg") (lit ".")) = stem.
Proof.
  unfold rfind. change (lit ".") with ["."%char].
  change (lit ".svg") with ("."%char :: lit "svg").
  rewrite rfind_nat_char_last by not_elem_by_eval. cbn [index_or_minus1].
  by rewrite slice_to_nat, take_app_length.
Qed.


Lemma filter_eq_absent (names : list str) (name : str) :
  name ∉ names -> filter (fun n => n = name) names = [].
Proof.
  induction names as [|n names IH]; [done|].
  intros [Hn Hin]%not_elem_of_cons. rewrite filter_cons.
  destruct (decide (n = name)); [congruence|by apply IH].
Qed.

Lemma filter_eq_NoDup (names : list str) (name : str) :
  NoDup names -> name ∈ names -> length (filter (fun n => n = name) names) = 1.
Proof.
  induction 1 as [|n names Hn Hnd IH]; [by intros ?%elem_of_nil|].
  intros Hin. rewrite filter_cons. destruct (decide (n = name)) as [->|Hne].
  - by rewrite filter_eq_absent.
  - apply IH. apply elem_of_cons in Hin as [?|?]; [congruence|done].
Qed.

End Generator.

Ltac read_from_by_eval :=
  unfold read_from; cbn [app];
  repeat (apply Forall_cons; split; [vm_compute; reflexivity|]); constructor.

(** ** The claims on the module generator *)

Section GeneratorClaims.

Import IconFormating.

(** C3, as stated, fails: the export statement announced for the worked
    example, with no space before the comma nor before the closing brace,
    occurs nowhere in the text that iconjs.py generates. *)
Lemma announced_export_statement_missing :
  exists text,
    IconJs.module_text example_dir
      (IconJs.svg_files [lit "home.svg"; lit "search-icon.svg"]) = Some text
    /\ absent (lit "export { HOME_SVG, SEARCH_ICON_SVG};") text.
Proof.
  eexists. split; [vm_compute; reflexivity|].
  apply find_absent. vm_compute. reflexivity.
Qed.

(** The text that iconjs.py writes for the worked example, its stripper
    having taken the space after the attribute of the first icon and damaged
    the second one. *)
Example iconjs_example_text :
  IconJs.module_text example_dir (IconJs.svg_files [lit "home.svg"; lit "search-icon.svg"])
  = Some (lit "const HOME_SVG = `<svg d=" ++ [dq] ++ lit "M0 0" ++ [dq] ++ lit "/>`" ++ [LF]
          ++ lit "const SEARCH_ICON_SVG = `<svg d=" ++ [dq] ++ lit "M1 1" ++ [dq]
          ++ lit "/d=" ++ [dq] ++ lit "M1 1" ++ [dq] ++ lit "/>`" ++ [LF]
          ++ [LF]
          ++ lit "export { HOME_SVG , SEARCH_ICON_SVG };").
Proof. by vm_compute. Qed.

(** C3, amended: for home.svg and search-icon.svg listed in that order,
    the text that iconjs.py generates and writes to icons.js is a declaration
    of HOME_SVG, a declaration of SEARCH_ICON_SVG, each holding between
    backticks what the stripper of the script returns for the file, an empty
    line, and an export statement in which a space precedes the comma and the
    closing brace; and the loop of iconFormating.py (lines 33 to 51), with
    the guarded stripper, accumulates the two declarations announced,
    character for character, and the same export names. *)
Theorem example_module_text :
  let text_js :=
    lit "const HOME_SVG = `" ++ IconJs.strip_fill home_svg ++ lit "`" ++ [LF]
    ++ lit "const SEARCH_ICON_SVG = `" ++ IconJs.strip_fill search_icon_svg ++ lit "`" ++ [LF]
    ++ [LF]
    ++ lit "export { HOME_SVG , SEARCH_ICON_SVG };" in
  IconJs.module_text example_dir (IconJs.svg_files [lit "home.svg"; lit "search-icon.svg"])
  = Some text_js
  /\ IconJs.generate [lit "home.svg"; lit "search-icon.svg"] example_dir
     = Some (<[lit "icons.js" := text_js]> example_dir)
  /\ IconFormating.loop example_dir (svg_files [lit "home.svg"; lit "search-icon.svg"]) init
     = Some (Acc
               (lit "const HOME_SVG = `<svg  d=" ++ [dq] ++ lit "M0 0" ++ [dq] ++ lit "/>`" ++ [LF]
                ++ lit "const SEARCH_ICON_SVG = `<svg d=" ++ [dq] ++ lit "M1 1" ++ [dq]
                ++ lit "/>`" ++ [LF])
               (lit "{ HOME_SVG , SEARCH_ICON_SVG ")).
Proof.
  assert (IconJs.module_text example_dir
            (IconJs.svg_files [lit "home.svg"; lit "search-icon.svg"])
          = Some (lit "const HOME_SVG = `" ++ IconJs.strip_fill home_svg ++ lit "`" ++ [LF]
                  ++ lit "const SEARCH_ICON_SVG = `" ++ IconJs.strip_fill search_icon_svg
                  ++ lit "`" ++ [LF] ++ [LF]
                  ++ lit "export { HOME_SVG , SEARCH_ICON_SVG };")) as E
    by (vm_compute; reflexivity).
  cbv zeta. split; [exact E|]. split; [|by vm_compute].
  unfold IconJs.generate. by rewrite E.
Qed.

(** C4, as stated, fails: a-b.svg and a_b.svg give the same constant name,
    and the text generated by either script shows two declarations of it. *)
Lemma colliding_names_declared_twice :
  constName (lit "a-b.svg") = lit "A_B_SVG" /\
  constName (lit "a_b.svg") = lit "A_B_SVG" /\
  exists text text_js,
    IconFormating.module_text colliding_dir
      (svg_files [lit "a-b.svg"; lit "a_b.svg"]) = Some text
    /\ IconJs.module_text colliding_dir
         (IconJs.svg_files [lit "a-b.svg"; lit "a_b.svg"]) = Some text_js
    /\ declared text (lit "A_B_SVG") = 2
    /\ declared text_js (lit "A_B_SVG") = 2.
Proof.
  split; [by vm_compute|]. split; [by vm_compute|].
  eexists _, _. split; [vm_compute; reflexivity|]. split; [vm_compute; reflexivity|].
  split; by vm_compute.
Qed.

(** C4, amended: when two of the files read give the same constant name,
    nothing is overwritten: the generated text holds the declaration of the
    first and, further on, the declaration of the second, both under that
    name, and the export statement lists the name at both places. *)
Theorem module_text_colliding_names d before e1 between e2 after name :
  read_from d (before ++ e1 :: between ++ e2 :: after) ->
  constName e1.1 = name -> constName e2.1 = name ->
  IconFormating.module_text d (before ++ e1 :: between ++ e2 :: after).*1
  = Some (colliding_layout IconFormating.strip_fill [LF] before e1 between e2 after name)
  /\ IconJs.module_text d (before ++ e1 :: between ++ e2 :: after).*1
     = Some (colliding_layout IconJs.strip_fill [] before e1 between e2 after name).
Proof.
  intros Hread E1 E2.
  rewrite (module_text_layout _ _ Hread), (module_text_js_layout _ _ Hread).
  by rewrite !(module_layout_colliding _ _ _ _ _ _ _ name E1 E2).
Qed.

Lemma module_text_colliding_names_witness :
  read_from colliding_dir
    ([] ++ (lit "a-b.svg", lit "<svg/>") :: [] ++ (lit "a_b.svg", lit "<g/>") :: [])
  /\ constName (lit "a-b.svg") = lit "A_B_SVG"
  /\ constName (lit "a_b.svg") = lit "A_B_SVG"
  /\ IconFormating.module_text colliding_dir [lit "a-b.svg"; lit "a_b.svg"]
     = Some (lit "const A_B_SVG = `<svg/>`" ++ [LF]
             ++ lit "const A_B_SVG = `<g/>`" ++ [LF]
             ++ [LF] ++ lit "export { A_B_SVG , A_B_SVG };" ++ [LF])
  /\ IconJs.module_text colliding_dir [lit "a-b.svg"; lit "a_b.svg"]
     = Some (lit "const A_B_SVG = `<svg/>`" ++ [LF]
             ++ lit "const A_B_SVG = `<g/`" ++ [LF]
             ++ [LF] ++ lit "export { A_B_SVG , A_B_SVG };").
Proof.
  assert (read_from colliding_dir
            ([] ++ (lit "a-b.svg", lit "<svg/>") :: [] ++ (lit "a_b.svg", lit "<g/>") :: []))
    as H1 by read_from_by_eval.
  assert (constName (lit "a-b.svg") = lit "A_B_SVG") as H2 by (vm_compute; reflexivity).
  assert (constName (lit "a_b.svg") = lit "A_B_SVG") as H3 by (vm_compute; reflexivity).
  split; [exact H1|]. split; [exact H2|]. split; [exact H3|].
  exact (module_text_colliding_names colliding_dir []
           (lit "a-b.svg", lit "<svg/>") [] (lit "a_b.svg", lit "<g/>") []
           (lit "A_B_SVG") H1 H2 H3).
Defined.

(** C6: when the files read have pairwise distinct constant names, the
    text generated by either script is made of one declaration for each
    file, in the order of the files, followed by the export statement, which
    lists the names in that same order, each of them once. *)
Theorem module_text_distinct_names d entries :
  read_from d entries -> NoDup (constName <$> entries.*1) ->
  IconFormating.module_text d entries.*1
  = Some (concat (map (fun e => declaration IconFormating.strip_fill e.1 e.2) entries)
          ++ [LF] ++ lit "export {"
          ++ export_names (constName <$> entries.*1) ++ lit "};" ++ [LF])
  /\ IconJs.module_text d entries.*1
     = Some (concat (map (fun e => declaration IconJs.strip_fill e.1 e.2) entries)
             ++ [LF] ++ lit "export {"
             ++ export_names (constName <$> entries.*1) ++ lit "};")
  /\ forall file, file ∈ entries.*1 ->
       length (filter (fun n => n = constName file) (constName <$> entries.*1)) = 1.
Proof.
  intros Hread Hnd. split; [by apply module_text_layout|].
  split.
  - rewrite (module_text_js_layout _ _ Hread). unfold module_layout. by rewrite app_nil_r.
  - intros file Hin. apply filter_eq_NoDup; [done|]. by apply list_elem_of_fmap_2.
Qed.

Lemma module_text_distinct_names_witness :
  let entries := [(lit "home.svg", home_svg); (lit "search-icon.svg", search_icon_svg)] in
  read_from example_dir entries
  /\ NoDup (constName <$> entries.*1)
  /\ IconFormating.module_text example_dir entries.*1
     = Some (concat (map (fun e => declaration IconFormating.strip_fill e.1 e.2) entries)
             ++ [LF] ++ lit "export {"
             ++ export_names (constName <$> entries.*1) ++ lit "};" ++ [LF])
  /\ IconJs.module_text example_dir entries.*1
     = Some (concat (map (fun e => declaration IconJs.strip_fill e.1 e.2) entries)
             ++ [LF] ++ lit "export {"
             ++ export_names (constName <$> entries.*1) ++ lit "};")
  /\ forall file, file ∈ entries.*1 ->
       length (filter (fun n => n = constName file) (constName <$> entries.*1)) = 1.
Proof.
  intros entries.
  assert (read_from example_dir entries) as H1 by (subst entries; read_from_by_eval).
  assert (NoDup (constName <$> entries.*1)) as H2.
  { apply (bool_decide_unpack _). vm_compute. exact I. }
  split; [exact H1|]. split; [exact H2|].
  exact (module_text_distinct_names example_dir entries H1 H2).
Defined.



End GeneratorClaims.

(** ** Further properties of the two strippers *)

Section StripperFurther.

Import IconFormating.

Implicit Types (icon pre value post rest : str).

(** X1: the guarded stripper removes the first fill attribute only: the
    text after its closing quote is kept as it is, so that every further
    fill attribute is still there. *)
Theorem strip_fill_first_of_several icon pre value post :
  first_occurrence icon fillKey pre (value ++ dq :: post) -> dq ∉ value ->
  strip_fill icon = pre ++ post /\
  forall pre2 value2 post2,
    fill_attribute post pre2 value2 post2 ->
    fill_attribute (strip_fill icon) (pre ++ pre2) value2 post2.
Proof.
  intros Hfirst Hv.
  assert (strip_fill icon = pre ++ post) as E.
  { rewrite (strip_fill_at_first_key _ _ _ Hfirst). f_equal.
    unfold find. rewrite find_nat_char by done. cbn [index_or_minus1].
    replace (Z.to_nat (Z.of_nat (length value) + 1)) with (length (value ++ [dq]))
      by (rewrite length_app; simpl; lia).
    replace (value ++ dq :: post) with ((value ++ [dq]) ++ post)
      by by rewrite <- app_assoc.
    apply drop_app_length. }
  split; [exact E|]. intros pre2 value2 post2 [-> Hv2]. split; [|done].
  by rewrite E, <- app_assoc.
Qed.

Lemma strip_fill_first_of_several_witness :
  let icon := lit "<g fill=" ++ [dq] ++ lit "a" ++ [dq] ++ lit "><g fill="
              ++ [dq] ++ lit "b" ++ [dq] ++ lit "/></g>" in
  let post := lit "><g fill=" ++ [dq] ++ lit "b" ++ [dq] ++ lit "/></g>" in
  first_occurrence icon fillKey (lit "<g ") (lit "a" ++ dq :: post)
  /\ (dq ∉ lit "a")
  /\ strip_fill icon = lit "<g " ++ post
  /\ forall pre2 value2 post2,
       fill_attribute post pre2 value2 post2 ->
       fill_attribute (strip_fill icon) (lit "<g " ++ pre2) value2 post2.
Proof.
  intros icon post.
  assert (first_occurrence icon fillKey (lit "<g ") (lit "a" ++ dq :: post)) as H1
    by first_occurrence_by_eval.
  assert (dq ∉ lit "a") as H2 by not_elem_by_eval.
  split; [exact H1|]. split; [exact H2|].
  exact (strip_fill_first_of_several icon (lit "<g ") (lit "a") post H1 H2).
Defined.

(** X2: the guarded stripper returns its input unchanged exactly when the
    key occurs nowhere in it. *)
Theorem strip_fill_unchanged_iff icon :
  strip_fill icon = icon <-> absent fillKey icon.
Proof.
  split.
  - intros E. destruct (find_nat icon fillKey) as [i|] eqn:Ef.
    + assert (~ absent fillKey icon) as Hn.
      { intros Ha%find_nat_absent. congruence. }
      apply strip_fill_shortens in Hn. rewrite E in Hn. lia.
    + by apply find_nat_absent.
  - intros H%find_absent. unfold strip_fill. by rewrite H.
Qed.

(** X3: whatever the text, the guarded stripper only deletes one span of
    it, empty or starting with the key: nothing is inserted, repeated or
    moved. *)
Theorem strip_fill_deletes_one_span icon :
  exists pre mid post,
    icon = pre ++ mid ++ post /\ strip_fill icon = pre ++ post /\
    (mid = [] \/ exists m, mid = fillKey ++ m).
Proof.
  destruct (find_nat icon fillKey) as [i|] eqn:E.
  - pose proof E as (Hle & Hi & _)%find_nat_Some. apply startswith_inv in Hi.
    set (rest := drop (length fillKey) (drop i icon)) in *.
    assert (first_occurrence icon fillKey (take i icon) rest) as Hfirst.
    { apply find_nat_first_occurrence; [by rewrite <- Hi, take_drop|].
      rewrite E. f_equal. rewrite length_take. lia. }
    set (n := Z.to_nat (find rest [dq] + 1)).
    exists (take i icon), (fillKey ++ take n rest), (drop n rest).
    split; [|split].
    + rewrite <- app_assoc, take_drop. by destruct Hfirst.
    + apply (strip_fill_at_first_key _ _ _ Hfirst).
    + right. by eexists.
  - exists icon, [], []. rewrite !app_nil_r. split; [done|]. split; [|by left].
    unfold strip_fill, find. by rewrite E.
Qed.

End StripperFurther.

Section UnguardedStripper.

Import IconFormating.

Implicit Types (icon pre value post rest : str).

Lemma find_dq_in_key rest : find (fillKey ++ rest) [dq] = 5%Z.
Proof.
  unfold find. change (fillKey ++ rest) with (lit "fill=" ++ dq :: rest).
  rewrite find_nat_char; [done|]. not_elem_by_eval.
Qed.

(** What the stripper of iconjs.py does once the key is found: the quote it
    finds is the one of the key, so that it removes the key and the six
    characters after it, whatever the value is. *)
Lemma iconjs_strip_fill_at_first_key icon pre rest :
  first_occurrence icon fillKey pre rest ->
  IconJs.strip_fill icon = pre ++ drop 6 rest.
Proof.
  intros Hfirst. pose proof (first_occurrence_find_nat _ _ _ _ Hfirst) as Hf.
  destruct Hfirst as [-> _].
  assert (find (pre ++ fillKey ++ rest) IconJs.fillKey = Z.of_nat (length pre)) as Hfz
    by (unfold find, IconJs.fillKey; by rewrite Hf).
  unfold IconJs.strip_fill. rewrite !Hfz.
  rewrite slice_from_nat, drop_app_length, find_dq_in_key.
  replace (5 + Z.of_nat (length pre) + len IconJs.fillKey + 1)%Z
    with (Z.of_nat (length pre + length fillKey + 6)) by (unfold len; cbn; lia).
  rewrite slice_to_nat, slice_from_nat, take_app_length.
  by rewrite <- drop_drop, drop_app_two.
Qed.

(** X4: on a text whose first key opens an attribute, the stripper of
    iconjs.py removes that attribute and nothing else exactly when the
    value has five characters, or has fewer and the attribute ends the
    text. *)
Theorem iconjs_strip_fill_right_iff icon pre value post :
  first_occurrence icon fillKey pre (value ++ dq :: post) ->
  IconJs.strip_fill icon = pre ++ drop 6 (value ++ dq :: post) /\
  (IconJs.strip_fill icon = pre ++ post <->
   length value = 5 \/ (post = [] /\ length value < 5)).
Proof.
  intros Hfirst. pose proof (iconjs_strip_fill_at_first_key _ _ _ Hfirst) as E.
  split; [exact E|]. rewrite E. split.
  - intros H%app_inv_head. apply (f_equal length) in H.
    rewrite length_drop, length_app in H. cbn [length] in H.
    destruct post as [|c post]; cbn [length] in H; [|left; lia].
    destruct (decide (length value = 5)); [by left|right]. split; [done|lia].
  - intros [Hv|[-> Hv]]; f_equal.
    + replace (value ++ dq :: post) with ((value ++ [dq]) ++ post)
        by by rewrite <- app_assoc.
      replace 6 with (length (value ++ [dq])) by (rewrite length_app; cbn; lia).
      apply drop_app_length.
    + apply drop_ge. rewrite length_app. cbn. lia.
Qed.

Lemma iconjs_strip_fill_right_iff_witness :
  let icon := lit "<svg fill=" ++ [dq] ++ lit "black" ++ [dq] ++ lit "/>" in
  first_occurrence icon fillKey (lit "<svg ") (lit "black" ++ dq :: lit "/>")
  /\ IconJs.strip_fill icon = lit "<svg " ++ drop 6 (lit "black" ++ dq :: lit "/>")
  /\ (IconJs.strip_fill icon = lit "<svg " ++ lit "/>" <->
      length (lit "black") = 5 \/ (lit "/>" = [] /\ length (lit "black") < 5)).
Proof.
  intros icon.
  assert (first_occurrence icon fillKey (lit "<svg ") (lit "black" ++ dq :: lit "/>")) as H
    by first_occurrence_by_eval.
  split; [exact H|].
  exact (iconjs_strip_fill_right_iff icon (lit "<svg ") (lit "black") (lit "/>") H).
Defined.

Lemma slice_from_last icon c :
  slice_from (icon ++ [c]) (-1) = [c].
Proof.
  rewrite slice_from_minus1, length_app. cbn [length].
  replace (length icon + 1 - 1) with (length icon) by lia. apply drop_app_length.
Qed.

Lemma find_dq_last icon :
  find (slice_from icon (-1)) [dq]
  = if bool_decide (last icon = Some dq) then 0%Z else (-1)%Z.
Proof.
  induction icon as [|c icon _] using rev_ind; [done|].
  rewrite slice_from_last, last_snoc. unfold find.
  destruct (decide (c = dq)) as [->|Hc].
  - by rewrite bool_decide_eq_true_2.
  - rewrite bool_decide_eq_false_2 by congruence.
    rewrite find_nat_char_absent; [done|].
    intros ?%list_elem_of_singleton. congruence.
Qed.

(** X5: on a text without the key, the stripper of iconjs.py, which takes
    the [-1] of [find] for an index, returns the text less its last character
    followed by the text from its sixth character on (from its seventh when
    the text ends with a double quote); a text of more than seven characters
    comes out longer than it went in. *)
Theorem iconjs_strip_fill_key_absent icon :
  absent fillKey icon ->
  IconJs.strip_fill icon
  = take (length icon - 1) icon
    ++ drop (if bool_decide (last icon = Some dq) then 6 else 5) icon
  /\ (7 < length icon -> length icon < length (IconJs.strip_fill icon)).
Proof.
  intros H%find_absent.
  assert (IconJs.strip_fill icon
          = take (length icon - 1) icon
            ++ drop (if bool_decide (last icon = Some dq) then 6 else 5) icon) as E.
  { unfold IconJs.strip_fill, IconJs.fillKey. rewrite !H.
    rewrite slice_to_minus1, find_dq_last. f_equal.
    destruct (bool_decide _).
    - change (0 + -1 + len fillKey + 1)%Z with (Z.of_nat 6). apply slice_from_nat.
    - change (-1 + -1 + len fillKey + 1)%Z with (Z.of_nat 5). apply slice_from_nat. }
  split; [exact E|]. intros Hlen. rewrite E, length_app, length_take, length_drop.
  destruct (bool_decide _); lia.
Qed.

Lemma iconjs_strip_fill_key_absent_witness :
  absent fillKey search_icon_svg
  /\ IconJs.strip_fill search_icon_svg
     = take (length search_icon_svg - 1) search_icon_svg
       ++ drop (if bool_decide (last search_icon_svg = Some dq) then 6 else 5)
               search_icon_svg
  /\ (7 < length search_icon_svg ->
      length search_icon_svg < length (IconJs.strip_fill search_icon_svg)).
Proof.
  assert (absent fillKey search_icon_svg) as H.
  { apply find_absent. vm_compute. reflexivity. }
  split; [exact H|]. exact (iconjs_strip_fill_key_absent search_icon_svg H).
Defined.

End UnguardedStripper.

(** ** Further properties of the module generator *)

Section GeneratorFurther.

Import IconFormating.

Implicit Types (d : directory) (files listing : list str) (a : acc).

Lemma loop_None d files a :
  IconFormating.loop d files a = None <-> exists f, f ∈ files /\ d !! f = None.
Proof.
  revert a. induction files as [|file files IH]; intros a; cbn [loop].
  - split; [done|]. by intros (f & ?%elem_of_nil & _).
  - destruct (d !! file) as [icon|] eqn:E; cbn.
    + rewrite IH. split.
      * intros (f & Hf & Hd). exists f. split; [by right|done].
      * intros (f & [->|Hf]%elem_of_cons & Hd);
          [by pose proof (eq_trans (eq_sym E) Hd)|by exists f].
    + split; [|done]. intros _. exists file. split; [by left|done].
Qed.






Lemma loop_js_insert_other d files a k v :
  k ∉ files -> IconJs.loop (<[k := v]> d) files a = IconJs.loop d files a.
Proof.
  revert a. induction files as [|file files IH]; intros a Hk; [done|].
  apply not_elem_of_cons in Hk as [Hne Hk]. cbn [IconJs.loop].
  assert (((<[k := v]> d) !! file : option str) = (d !! file : option str)) as ->
    by by apply lookup_insert_ne.
  destruct (d !! file : option str); cbn; [by apply IH|done].
Qed.

Lemma svg_files_skip_icons_js l1 l2 :
  svg_files (l1 ++ lit "icons.js" :: l2) = svg_files (l1 ++ l2).
Proof.
  unfold svg_files. rewrite !filter_app, filter_cons.
  by destruct (decide _) as [E|_]; [vm_compute in E|].
Qed.

(** X8: a run of iconjs.py changes no file but icons.js, and its own
    output does not feed the next run: with icons.js now listed among the
    files, wherever it comes in the listing, a second run leaves the
    directory as the first one left it. *)
Theorem generate_rerun listing d d' :
  IconJs.generate listing d = Some d' ->
  (forall g, g <> lit "icons.js" -> d' !! g = d !! g)
  /\ forall l1 l2, listing = l1 ++ l2 ->
       IconJs.generate (l1 ++ lit "icons.js" :: l2) d' = Some d'.
Proof.
  unfold IconJs.generate, IconJs.svg_files.
  destruct (IconJs.module_text d (svg_files listing)) as [text|] eqn:E; [|done].
  cbn. intros [= <-]. split.
  - intros g Hg. by rewrite lookup_insert_ne.
  - intros l1 l2 ->. rewrite svg_files_skip_icons_js.
    unfold IconJs.module_text in *. rewrite loop_js_insert_other.
    + destruct (IconJs.loop d (svg_files (l1 ++ l2)) init); [|done].
      cbn in *. injection E as ->. by rewrite insert_insert_eq.
    + intros [H _]%list_elem_of_filter. by vm_compute in H.
Qed.

Lemma generate_rerun_witness :
  exists d',
    IconJs.generate [lit "home.svg"; lit "search-icon.svg"] example_dir = Some d'
    /\ (forall g, g <> lit "icons.js" -> d' !! g = example_dir !! g)
    /\ forall l1 l2, [lit "home.svg"; lit "search-icon.svg"] = l1 ++ l2 ->
         IconJs.generate (l1 ++ lit "icons.js" :: l2) d' = Some d'.
Proof.
  eexists.
  assert (IconJs.generate [lit "home.svg"; lit "search-icon.svg"] example_dir
          = Some (<[lit "icons.js" :=
                     lit "const HOME_SVG = `" ++ IconJs.strip_fill home_svg ++ lit "`" ++ [LF]
                     ++ lit "const SEARCH_ICON_SVG = `" ++ IconJs.strip_fill search_icon_svg
                     ++ lit "`" ++ [LF] ++ [LF]
                     ++ lit "export { HOME_SVG , SEARCH_ICON_SVG };"]> example_dir)) as H
    by (vm_compute; reflexivity).
  split; [exact H|]. exact (generate_rerun _ _ _ H).
Defined.

End GeneratorFurther.

Section ConstantNames.

Import IconFormating.

(** One character through the replacement and the upper-casing. *)
Lemma upper_replace_char (x : ascii) :
  let y := upper_char (if Ascii.eqb x "-" then "_"%char else x) in
  y <> "-"%char /\ ((97 <=? nat_of_ascii y) && (nat_of_ascii y <=? 122) = false)
  /\ upper_char (if Ascii.eqb (upper_char x) "-" then "_"%char else upper_char x) = y
  /\ upper_char (if Ascii.eqb (if Ascii.eqb x "-" then "_"%char else x) "-"
                 then "_"%char else (if Ascii.eqb x "-" then "_"%char else x)) = y.
Proof.
  destruct x as [[] [] [] [] [] [] [] []]; vm_compute; repeat split; discriminate.
Qed.

(** X9: whatever the filename, its constant name holds no hyphen and no
    lower-case letter. *)
Theorem constName_characters file c :
  c ∈ constName file ->
  c <> "-"%char /\ ~ (97 <= nat_of_ascii c <= 122).
Proof.
  unfold constName, upper, replace1. rewrite map_map.
  intros [Hc|Hc]%elem_of_app.
  - apply list_elem_of_In, in_map_iff in Hc as (x & <- & _).
    destruct (upper_replace_char x) as (H1 & H2 & _). split; [exact H1|].
    intros [Ha%Nat.leb_le Hb%Nat.leb_le]. by rewrite Ha, Hb in H2.
  - repeat (apply elem_of_cons in Hc as [->|Hc];
            [split; [discriminate|vm_compute; lia]|]).
    by apply elem_of_nil in Hc.
Qed.

Lemma constName_characters_witness :
  "S"%char ∈ constName (lit "search-icon.svg")
  /\ "S"%char <> "-"%char /\ ~ (97 <= nat_of_ascii "S" <= 122).
Proof.
  assert ("S"%char ∈ constName (lit "search-icon.svg")) as H.
  { apply (bool_decide_unpack _). vm_compute. exact I. }
  split; [exact H|]. exact (constName_characters (lit "search-icon.svg") "S" H).
Defined.

(** X10: the constant name does not tell letter case nor a hyphen from an
    underscore: upper-casing the stem of an .svg filename, or replacing its
    hyphens by underscores, gives a file with the same constant name. *)
Theorem constName_blind_to_case_and_hyphens stem :
  constName (upper stem ++ lit ".svg") = constName (stem ++ lit ".svg")
  /\ constName (replace1 "-" "_" stem ++ lit ".svg") = constName (stem ++ lit ".svg").
Proof.
  unfold constName. rewrite !rfind_dot_svg. unfold upper, replace1.
  rewrite !map_map. split; f_equal; apply map_ext; intros x;
    by destruct (upper_replace_char x) as (_ & _ & H1 & H2).
Qed.

End ConstantNames.

(** ** Further properties of the filename normalizer *)

Section NormalizerFurther.

Import TempRename.

Implicit Types (file pre seg rest stem ext : str) (t : tree).






Lemma move_size src dst t t' :
  move src dst t = Some t' -> size (regular t') <= size (regular t).
Proof.
  intros (content & E & H)%move_regular.
  assert (size (regular t) <> 0) as Hpos.
  { intros Hz%map_size_empty_inv. rewrite Hz in E. by rewrite lookup_empty in E. }
  assert (size (delete src (regular t)) = pred (size (regular t))) as Hd.
  { rewrite map_size_delete. unfold str in *. by rewrite E. }
  destruct H as [-> | ->]; [|lia].
  rewrite map_size_insert, Hd. unfold str in *. unfold id.
  destruct (delete src (regular t) !! dst); lia.
Qed.

(** X13: the rename loop never adds a file: the directory it leaves holds
    at most as many regular files as the one it found. *)
Theorem rename_loop_never_adds files t t' :
  rename_loop files t = Some t' -> size (regular t') <= size (regular t).
Proof.
  revert t. induction files as [|f files IH]; intros t; cbn [rename_loop].
  - by intros [= ->].
  - destruct (rename_file f t) as [t1|] eqn:E; [|done]. cbn. intros H%IH.
    enough (size (regular t1) <= size (regular t)) by lia.
    unfold rename_file in E. destruct (find f marker =? -1)%Z.
    + by injection E as ->.
    + by eapply move_size.
Qed.

Lemma rename_loop_never_adds_witness :
  let t :=
    files_only (<[lit "a_24dp_x.svg" := lit "<one/>"]>
                  (<[lit "a_48dp_x.svg" := lit "<two/>"]> ∅)) in
  rename_loop [lit "a_24dp_x.svg"; lit "a_48dp_x.svg"] t
  = Some (files_only (<[lit "a.svg" := lit "<two/>"]> ∅))
  /\ size (regular (files_only (<[lit "a.svg" := lit "<two/>"]> ∅))) <= size (regular t).
Proof.
  intros t.
  assert (rename_loop [lit "a_24dp_x.svg"; lit "a_48dp_x.svg"] t
          = Some (files_only (<[lit "a.svg" := lit "<two/>"]> ∅))) as H by (by vm_compute).
  split; [exact H|]. exact (rename_loop_never_adds _ t _ H).
Defined.

End NormalizerFurther.

Section SecondRun.

Import TempRename.

Implicit Types (file pre seg rest stem ext : str) (t : tree).

Lemma marker_at (l : list ascii) i :
  startswith (drop i l) marker = true <->
  l !! i = Some "d"%char /\ l !! (i + 1) = Some "p"%char /\ l !! (i + 2) = Some "_"%char.
Proof.
  replace (l !! i) with (drop i l !! 0) by (by rewrite lookup_drop, Nat.add_0_r).
  rewrite <- !lookup_drop. split.
  - intros H%startswith_inv. by rewrite H.
  - intros (H0 & H1 & H2).
    destruct (drop i l) as [|a [|b [|c r]]]; cbn in H0, H1, H2; try done.
    injection H0 as ->. injection H1 as ->. injection H2 as ->. by destruct r.
Qed.

(** The new name holds no marker when the extension holds none: the text
    kept before the dot ends before the first marker, and a dot is no part
    of a marker. *)
Lemma newName_absent_marker file pre seg rest ext :
  first_occurrence file marker (pre ++ "_"%char :: seg) rest ->
  absent marker ext -> absent marker (pre ++ "."%char :: ext).
Proof.
  intros Hfirst Hext a b E.
  assert (startswith (drop (length a) (pre ++ "."%char :: ext)) marker = true) as Hocc.
  { rewrite E, drop_app_length. apply startswith_app. }
  apply marker_at in Hocc as (L0 & L1 & L2).
  assert ((pre ++ "."%char :: ext) !! length pre = Some "."%char) as Ldot
    by (by apply list_lookup_middle).
  destruct (Nat.le_gt_cases (length a + 3) (length pre)) as [Hin|Hout].
  - rewrite lookup_app_l in L0, L1, L2 by lia.
    pose proof (first_occurrence_find_nat _ _ _ _ Hfirst) as Hf.
    apply find_nat_Some in Hf as (_ & _ & Hlt).
    specialize (Hlt (length a)). rewrite length_app in Hlt.
    assert (startswith (drop (length a) file) marker = true) as Hocc.
    { destruct Hfirst as [-> _]. apply marker_at.
      rewrite <- !app_assoc, !lookup_app_l by lia. done. }
    rewrite Hlt in Hocc; [done|lia].
  - destruct (Nat.le_gt_cases (length a) (length pre)) as [Hle|Hgt].
    + assert (length pre = length a \/ length pre = length a + 1
              \/ length pre = length a + 2) as [H|[H|H]] by lia;
        rewrite H in Ldot; congruence.
    + apply (Hext (drop (length pre + length ["."%char]) a) b).
      rewrite <- (drop_app_two pre ["."%char] ext). cbn [app]. rewrite E.
      apply drop_app_le. cbn. lia.
Qed.

(** X14: when an underscore precedes the first marker and the extension
    holds no marker, the new name holds none either, so that a second run
    of the loop leaves the renamed file alone. *)
Theorem newName_marker_free file pre seg rest stem ext :
  first_occurrence file marker (pre ++ "_"%char :: seg) rest ->
  "_"%char ∉ seg -> last_dot file stem ext -> absent marker ext ->
  absent marker (newName file) /\
  forall t, rename_file (newName file) t = Some t.
Proof.
  intros Hfirst Hseg Hdot Hext.
  rewrite (newName_later_segment _ _ _ _ _ _ Hfirst Hseg Hdot).
  pose proof (newName_absent_marker _ _ _ _ _ Hfirst Hext) as H.
  split; [exact H|]. intros t. unfold rename_file.
  apply find_absent in H. by rewrite H.
Qed.

Lemma newName_marker_free_witness :
  let file := lit "home_24dp_000000.svg" in
  first_occurrence file marker (lit "home" ++ "_"%char :: lit "24") (lit "000000.svg")
  /\ ("_"%char ∉ lit "24")
  /\ last_dot file (lit "home_24dp_000000") (lit "svg")
  /\ absent marker (lit "svg")
  /\ absent marker (newName file)
  /\ forall t, rename_file (newName file) t = Some t.
Proof.
  intros file.
  assert (first_occurrence file marker (lit "home" ++ "_"%char :: lit "24")
            (lit "000000.svg")) as H1 by first_occurrence_by_eval.
  assert ("_"%char ∉ lit "24") as H2 by not_elem_by_eval.
  assert (last_dot file (lit "home_24dp_000000") (lit "svg")) as H3 by last_dot_by_eval.
  assert (absent marker (lit "svg")) as H4.
  { apply find_absent. vm_compute. reflexivity. }
  split; [exact H1|]. split; [exact H2|]. split; [exact H3|]. split; [exact H4|].
  exact (newName_marker_free file _ _ _ _ _ H1 H2 H3 H4).
Defined.

(** X15: a filename without dot gets the last character of the name for
    an extension: with no underscore before the first marker either, the
    new name is the name itself, and moving the file onto itself leaves the
    directory as it is; with an underscore, the new name is the text before
    it followed by that last character. *)
Theorem newName_without_dot file pre rest t content :
  first_occurrence file marker pre rest -> "."%char ∉ file ->
  regular t !! file = Some content ->
  ("_"%char ∉ pre -> newName file = file /\ rename_file file t = Some t)
  /\ forall pre0 seg,
       pre = pre0 ++ "_"%char :: seg -> "_"%char ∉ seg ->
       newName file = pre0 ++ drop (length file - 1) file.
Proof.
  intros Hfirst Hdot Hd. split.
  - intros Hpre. pose proof (newName_no_dot _ _ _ Hfirst Hpre Hdot) as E.
    split; [exact E|]. rewrite (rename_file_marked _ _ _ _ Hfirst), E.
    unfold move. unfold str in *. rewrite Hd. cbn [mbind option_bind].
    rewrite bool_decide_eq_true_2 by (by eexists).
    rewrite insert_delete_id by done. by destruct t.
  - intros pre0 seg -> Hseg. unfold newName.
    rewrite (slice_to_first_marker _ _ _ Hfirst). unfold rfind.
    change (lit "_") with ["_"%char]. change (lit ".") with ["."%char].
    rewrite rfind_nat_char_last, rfind_nat_char_absent by done.
    cbn [index_or_minus1]. rewrite slice_to_nat, slice_from_minus1.
    destruct Hfirst as [-> _]. by rewrite <- !app_assoc, take_app_length.
Qed.

Lemma newName_without_dot_witness :
  let t := files_only (<[lit "a_xdp_y" := lit "<svg/>"]> ∅) in
  first_occurrence (lit "a_xdp_y") marker (lit "a_x") (lit "y")
  /\ ("."%char ∉ lit "a_xdp_y")
  /\ regular t !! lit "a_xdp_y" = Some (lit "<svg/>")
  /\ ("_"%char ∉ lit "a_x" ->
      newName (lit "a_xdp_y") = lit "a_xdp_y"
      /\ rename_file (lit "a_xdp_y") t = Some t)
  /\ forall pre0 seg,
       lit "a_x" = pre0 ++ "_"%char :: seg -> "_"%char ∉ seg ->
       newName (lit "a_xdp_y") = pre0 ++ drop (length (lit "a_xdp_y") - 1) (lit "a_xdp_y").
Proof.
  intros t.
  assert (first_occurrence (lit "a_xdp_y") marker (lit "a_x") (lit "y")) as H1
    by first_occurrence_by_eval.
  assert ("."%char ∉ lit "a_xdp_y") as H2 by not_elem_by_eval.
  assert (regular t !! lit "a_xdp_y" = Some (lit "<svg/>")) as H3 by (by vm_compute).
  split; [exact H1|]. split; [exact H2|]. split; [exact H3|].
  exact (newName_without_dot _ _ _ t _ H1 H2 H3).
Defined.

End SecondRun.
